(** * A shallow embedding of gapii's CallObserver (gapii/cc/call_observer.h)

    Addresses ([uintptr_t]), sizes and element counts ([uint64_t]) are
    modelled as [N]; process memory as a total function from addresses to
    bytes.  The pending-observation list ([core::IntervalList<uintptr_t>]),
    the out-of-line members of [CallObserver] ([read(base, size)],
    [write(base, size)], [observe]), [Pool::create] and [checkNotNull] are
    defined outside gapii/cc/call_observer.h; their definitions below are
    marked as modelled from the specification. *)

From Stdlib Require Import NArith ZArith List Lia Bool.
From Stdlib Require Strings.String.
From Stdlib Require Import Strings.Byte.
Import ListNotations.
Local Open Scope N_scope.

(* ------------------------------------------------------------------ *)
(** ** Machine integers and memory *)

Definition wrap64 (x : N) : N := x mod 2 ^ 64.

(** Process memory, byte addressed. *)
Definition Mem := N -> byte.

(** [n] bytes of memory starting at [a]. *)
Definition load (m : Mem) (a n : N) : list byte :=
  map (fun k => m (a + N.of_nat k)) (seq 0 (N.to_nat n)).

(** Storing the bytes [bs] at address [a]. *)
Definition store (m : Mem) (a : N) (bs : list byte) : Mem :=
  fun x => if (a <=? x) && (x <? a + N.of_nat (length bs))
           then nth (N.to_nat (x - a)) bs x00 else m x.

(** A [memmove] of [n] bytes from [src] to [dst]. *)
Definition move (m : Mem) (dst src n : N) : Mem :=
  fun x => if (dst <=? x) && (x <? dst + n) then m (src + (x - dst)) else m x.

(* ------------------------------------------------------------------ *)
(** ** The pending-range tracker [core::IntervalList<uintptr_t>] *)

(** Half-open interval [[start, end)]. *)
Definition Interval : Type := N * N.

(** Modelled from the spec: the merge-on-insert of [core::IntervalList]
    (core/cc/interval_list.h): the intervals are kept in address order and
    an inserted interval is merged with every entry it overlaps or touches. *)
Fixpoint merge (s e : N) (l : list Interval) : list Interval :=
  match l with
  | [] => [(s, e)]
  | (a, b) :: r =>
      if b <? s then (a, b) :: merge s e r
      else if e <? a then (s, e) :: (a, b) :: r
      else merge (N.min a s) (N.max b e) r
  end.

(** Modelled from the spec: [insert(address, size)] adds
    [[address, address+size)]; [size == 0] is a no-op. *)
Definition tracker_insert (t : list Interval) (address size : N) : list Interval :=
  if size =? 0 then t else merge address (address + size) t.

(** [count()]: the number of stored entries. *)
Definition tracker_count (t : list Interval) : nat := length t.

(** An address is covered by some stored interval. *)
Definition covered (t : list Interval) (x : N) : bool :=
  existsb (fun '(a, b) => (a <=? x) && (x <? b)) t.

(** Entries are non-empty, in address order, and no two of them overlap or
    touch. *)
Fixpoint wf_tracker (t : list Interval) : Prop :=
  match t with
  | [] => True
  | (a, b) :: r => a < b /\ Forall (fun '(c, _) => b < c) r /\ wf_tracker r
  end.

(** Example runs of the tracker. *)
Example tracker_ex1 : tracker_insert (tracker_insert [] 0 10) 10 10 = [(0, 20)].
Proof. reflexivity. Qed.
Example tracker_ex2 : tracker_insert (tracker_insert [] 0 10) 5 10 = [(0, 15)].
Proof. reflexivity. Qed.
Example tracker_ex3 :
  tracker_insert (tracker_insert (tracker_insert [] 0 4) 10 4) 4 6 = [(0, 14)].
Proof. reflexivity. Qed.

(* ------------------------------------------------------------------ *)
(** ** Observations, extras and the observer state *)

(** [core::coder::atom::Observation]: an address and the bytes found there. *)
Record Observation := mkObservation { obs_base : N; obs_data : list byte }.

(** [core::coder::atom::Observations]: the read and write lists. *)
Record Observations := mkObservations {
  mReads : list Observation;
  mWrites : list Observation }.

Definition empty_observations : Observations := mkObservations [] [].

(** An entry of [mExtras] ([core::Encodable*]): either the observations
    record, named by its index in the scratch allocator, or another extra. *)
Inductive Extra :=
| ExObservations (idx : nat)
| ExOther (tag : nat).

(** The fields of [CallObserver] the operations touch.  [mScratch] holds
    the objects the scratch allocator created ([create<Observations>()]);
    [mObservations] points into it. *)
Record CallObserver := mkCallObserver {
  mObserveApplicationPool : bool;
  mPendingObservations : list Interval;
  mScratch : list Observations;
  mObservations : option nat;
  mExtras : list Extra }.

Definition set_pending (o : CallObserver) (t : list Interval) : CallObserver :=
  mkCallObserver (mObserveApplicationPool o) t (mScratch o) (mObservations o)
    (mExtras o).

Definition set_scratch (o : CallObserver) (s : list Observations) : CallObserver :=
  mkCallObserver (mObserveApplicationPool o) (mPendingObservations o) s
    (mObservations o) (mExtras o).

Definition set_observations (o : CallObserver) (r : option nat) : CallObserver :=
  mkCallObserver (mObserveApplicationPool o) (mPendingObservations o)
    (mScratch o) r (mExtras o).

(** [addExtra(extra)]: [mExtras.append(extra)]. *)
Definition addExtra (o : CallObserver) (e : Extra) : CallObserver :=
  mkCallObserver (mObserveApplicationPool o) (mPendingObservations o)
    (mScratch o) (mObservations o) (mExtras o ++ [e]).

(** The constructor: [mObservations] is [nullptr], nothing is pending, no
    extras; the policy flag comes from the spy. *)
Definition new_observer (observe_app : bool) : CallObserver :=
  mkCallObserver observe_app [] [] None [].

(** Modelled from the spec: [CallObserver::read(const void*, uint64_t)]
    (call_observer.cpp) records [[base, base+size)] into the pending
    tracker, with no pool check. *)
Definition read_raw (o : CallObserver) (base size : N) : CallObserver :=
  set_pending o (tracker_insert (mPendingObservations o) base size).

(** Modelled from the spec: [CallObserver::write(const void*, uint64_t)]
    (call_observer.cpp) records [[base, base+size)] into the pending
    tracker, with no pool check. *)
Definition write_raw (o : CallObserver) (base size : N) : CallObserver :=
  set_pending o (tracker_insert (mPendingObservations o) base size).

(** Modelled from the spec: [CallObserver::observe(observations)]
    (call_observer.cpp) appends, for every pending interval, its address
    and the bytes currently in memory there, then empties the tracker. *)
Definition drain (m : Mem) (t : list Interval) : list Observation :=
  map (fun '(a, b) => mkObservation a (load m a (b - a))) t.

Definition observe (o : CallObserver) (m : Mem) (target : list Observation)
  : CallObserver * list Observation :=
  (set_pending o [], target ++ drain m (mPendingObservations o)).

(** Replacing the [n]th object of the scratch allocator. *)
Fixpoint update_nth {A} (n : nat) (x : A) (l : list A) : list A :=
  match l, n with
  | [], _ => []
  | _ :: r, O => x :: r
  | y :: r, S k => y :: update_nth k x r
  end.

(** The [if (mObservations == nullptr) { ... }] block shared by
    [observeReads] and [observeWrites]: create the record in the scratch
    allocator and attach it to the extras, once. *)
Definition ensure_observations (o : CallObserver) : CallObserver * nat :=
  match mObservations o with
  | Some r => (o, r)
  | None =>
      let r := length (mScratch o) in
      (addExtra (set_observations
                   (set_scratch o (mScratch o ++ [empty_observations]))
                   (Some r))
                (ExObservations r), r)
  end.

Definition observeReads (o : CallObserver) (m : Mem) : CallObserver :=
  if (0 <? tracker_count (mPendingObservations o))%nat then
    let '(o1, r) := ensure_observations o in
    let rec := nth r (mScratch o1) empty_observations in
    let '(o2, reads) := observe o1 m (mReads rec) in
    set_scratch o2 (update_nth r (mkObservations reads (mWrites rec)) (mScratch o2))
  else o.

Definition observeWrites (o : CallObserver) (m : Mem) : CallObserver :=
  if (0 <? tracker_count (mPendingObservations o))%nat then
    let '(o1, r) := ensure_observations o in
    let rec := nth r (mScratch o1) empty_observations in
    let '(o2, writes) := observe o1 m (mWrites rec) in
    set_scratch o2 (update_nth r (mkObservations (mReads rec) writes) (mScratch o2))
  else o.

(* ------------------------------------------------------------------ *)
(** ** Slices and pools *)

(** Modelled from the spec: [Slice<T>] (gapii/cc/slice.h) is a base
    pointer, an element count and the owning pool; the application pool is
    the absent pool, every other pool has an identity. *)
Record Slice := mkSlice { s_base : N; s_count : N; s_pool : option nat }.

(** Modelled from the spec: [Slice<T>::isApplicationPool()]. *)
Definition isApplicationPool (s : Slice) : bool :=
  match s_pool s with None => true | Some _ => false end.

(** Modelled from the spec: the allocator behind [Pool::create(size)] hands
    out fresh pool identities and fresh storage above everything allocated
    so far. *)
Record Heap := mkHeap { next_pool : nat; next_addr : N }.

(** Modelled from the spec: [Pool::create(size)] returns a new pool (its
    identity and base address). *)
Definition pool_create (h : Heap) (size : N) : Heap * (nat * N) :=
  (mkHeap (S (next_pool h)) (next_addr h + size), (next_pool h, next_addr h)).

Section Slices.

(** [T] with [sizeof(T) = sz]; [enc v] is the object representation of [v]. *)
Variable T : Type.
Variable sz : N.
Variable enc : T -> list byte.

(** [shouldObserve(slice)]. *)
Definition shouldObserve (o : CallObserver) (slice : Slice) : bool :=
  mObserveApplicationPool o && isApplicationPool slice.

(** [&slice[i]]. *)
Definition elem_addr (slice : Slice) (i : N) : N := s_base slice + i * sz.

(** [slice.count() * sizeof(T)] as a [uint64_t]. *)
Definition slice_bytes (slice : Slice) : N := wrap64 (s_count slice * sz).

(** [read(const Slice<T>& slice)]. *)
Definition read_slice (o : CallObserver) (slice : Slice) : CallObserver :=
  if shouldObserve o slice then read_raw o (s_base slice) (slice_bytes slice)
  else o.

(** The value of type [T] that [sz] bytes of memory represent ([dec] reads
    the object representation [enc] writes). *)
Variable dec : list byte -> T.

(** [read(const Slice<T>& src, uint64_t index)]: the element is fetched by
    value; its bytes are recorded as a read only when [shouldObserve(src)]. *)
Definition read_elem (o : CallObserver) (m : Mem) (src : Slice) (index : N)
  : CallObserver * T :=
  let elem := dec (load m (elem_addr src index) sz) in
  (if shouldObserve o src then read_raw o (elem_addr src index) sz else o, elem).

(** [write(const Slice<T>& slice)]. *)
Definition write_slice (o : CallObserver) (slice : Slice) : CallObserver :=
  if shouldObserve o slice then write_raw o (s_base slice) (slice_bytes slice)
  else o.

(** [write(const Slice<T>& dst, uint64_t index, const T& value)]. *)
Definition write_elem (o : CallObserver) (m : Mem) (dst : Slice) (index : N)
  (value : T) : CallObserver * Mem :=
  if negb (shouldObserve o dst) then (o, store m (elem_addr dst index) (enc value))
  else (write_raw o (elem_addr dst index) sz, m).

(** Modelled from the spec: [src.copy(dst, start, count, dstStart)] copies
    [count] elements of [src] from [start] to [dst] at [dstStart]. *)
Definition slice_copy (m : Mem) (src dst : Slice) (start count dstStart : N) : Mem :=
  move m (elem_addr dst dstStart) (elem_addr src start) (count * sz).

(** [copy(const Slice<T>& dst, const Slice<T>& src)]. *)
Definition copy (o : CallObserver) (m : Mem) (dst src : Slice)
  : CallObserver * Mem * Slice :=
  let o1 := read_slice o src in
  if negb (shouldObserve o1 dst) then
    let c := if s_count src <? s_count dst then s_count src else s_count dst in
    (o1, slice_copy m src dst 0 c 0, dst)
  else (o1, m, dst).

(** [make<T>(count)]. *)
Definition make (h : Heap) (count : N) : Heap * Slice :=
  let '(h1, (pool, base)) := pool_create h (wrap64 (count * sz)) in
  (h1, mkSlice base count (Some pool)).

(** [clone(const Slice<T>& src)]. *)
Definition clone (o : CallObserver) (m : Mem) (h : Heap) (src : Slice)
  : CallObserver * Mem * Heap * Slice :=
  let '(h1, dst) := make h (s_count src) in
  let '(o1, m1, _) := copy o m dst src in
  (o1, m1, h1, dst).

End Slices.

(* ------------------------------------------------------------------ *)
(** ** Strings *)

(** The outcome of [string(const char* str)]: the abort raised by
    [checkNotNull], a scan that has not met a terminator within the fuel
    given, or the text and the observer after the read observation. *)
Inductive StringResult :=
| Aborted
| StillScanning
| Returned (o : CallObserver) (text : String.string).

(** The [for (uint64_t i = 0;; i++)] loop, run for at most [fuel] steps:
    the index of the first zero byte at or after [str + i]. *)
Fixpoint scan (m : Mem) (str i : N) (fuel : nat) : option N :=
  match fuel with
  | O => None
  | S f => if Byte.eqb (m (str + i)) x00 then Some i else scan m str (i + 1) f
  end.

(** Modelled from the spec: [checkNotNull(p)] raises the abort on a null
    pointer. *)
Definition checkNotNull (p : N) : bool := negb (p =? 0).

(** [string(const char* str)]. *)
Definition string_c (o : CallObserver) (m : Mem) (str : N) (fuel : nat)
  : StringResult :=
  if negb (checkNotNull str) then Aborted
  else match scan m str 0 fuel with
       | Some i => Returned (read_raw o str (i + 1))
                            (String.string_of_list_byte (load m str i))
       | None => StillScanning
       end.

(** [string(const Slice<char>& slice)]; [sizeof(char) = 1]. *)
Definition string_slice (o : CallObserver) (m : Mem) (slice : Slice)
  : CallObserver * String.string :=
  (read_slice 1 o slice,
   String.string_of_list_byte (load m (s_base slice) (s_count slice))).

(* ------------------------------------------------------------------ *)
(** ** Runs of an observer *)

(** The record [mObservations] points to, or an empty one while it is
    [nullptr]. *)
Definition current_record (o : CallObserver) : Observations :=
  match mObservations o with
  | Some r => nth r (mScratch o) empty_observations
  | None => empty_observations
  end.

(** [mObservations] points to an object of the scratch allocator. *)
Definition observations_valid (o : CallObserver) : Prop :=
  match mObservations o with
  | Some r => (r < length (mScratch o))%nat
  | None => True
  end.

Definition is_observations_extra (e : Extra) : bool :=
  match e with ExObservations _ => true | ExOther _ => false end.

(** The number of observation records attached to the extras. *)
Definition attached_records (o : CallObserver) : nat :=
  length (filter is_observations_extra (mExtras o)).

(** The calls glue code makes on an observer during one intercepted call;
    a materialization carries the memory it reads. *)
Inductive Op :=
| OpRead (base size : N)
| OpWrite (base size : N)
| OpAddExtra (tag : nat)
| OpObserveReads (m : Mem)
| OpObserveWrites (m : Mem).

Definition run_op (o : CallObserver) (op : Op) : CallObserver :=
  match op with
  | OpRead b n => read_raw o b n
  | OpWrite b n => write_raw o b n
  | OpAddExtra tag => addExtra o (ExOther tag)
  | OpObserveReads m => observeReads o m
  | OpObserveWrites m => observeWrites o m
  end.

Definition run_ops (o : CallObserver) (ops : list Op) : CallObserver :=
  fold_left run_op ops o.

(* ------------------------------------------------------------------ *)
(** ** Sample runs *)

Definition zero_mem : Mem := fun _ => x00.

(** ["abc\0"] at address 64. *)
Definition abc_mem : Mem :=
  fun x => if x =? 64 then x61 else if x =? 65 then x62
           else if x =? 66 then x63 else x00.

Example string_abc :
  string_c (new_observer false) abc_mem 64 10
  = Returned (set_pending (new_observer false) [(64, 68)]) (String.string_of_list_byte [x61; x62; x63]).
Proof. reflexivity. Qed.

Example string_null : string_c (new_observer true) abc_mem 0 10 = Aborted.
Proof. reflexivity. Qed.

Example copy_truncates :
  let '(_, m', _) := copy 1 (new_observer true) abc_mem (mkSlice 200 2 (Some 0%nat))
                          (mkSlice 64 3 (Some 1%nat)) in
  load m' 200 3 = [x61; x62; x00].
Proof. reflexivity. Qed.

Example observe_writes_then_reads :
  let o := write_raw (read_raw (new_observer true) 64 2) 66 1 in
  let o' := observeReads o abc_mem in
  mScratch o' = [mkObservations [mkObservation 64 [x61; x62; x63]] []]
  /\ mExtras o' = [ExObservations 0] /\ mPendingObservations o' = [].
Proof. repeat split; reflexivity. Qed.

(* ------------------------------------------------------------------ *)
(** ** Properties of the tracker *)

(** Trackers built from the empty one by a sequence of insertions. *)
Definition build (rs : list (N * N)) : list Interval :=
  fold_left (fun t '(a, n) => tracker_insert t a n) rs [].

Section Tracker.

Local Abbreviation starts_above x l := (Forall (fun '(c, _) => x < c) l).

Lemma starts_above_weaken (x y : N) (l : list Interval) :
  x <= y -> starts_above y l -> starts_above x l.
Proof.
  intros Hxy H; induction H as [|[c d] r Hc _ IH]; constructor; auto; lia.
Qed.

Lemma merge_starts_above (x s e : N) (l : list Interval) :
  x < s -> starts_above x l -> starts_above x (merge s e l).
Proof.
  revert s e; induction l as [|[a b] r IH]; intros s e Hs Hl; simpl.
  - repeat constructor; lia.
  - inversion Hl as [|? ? Ha Hr]; subst.
    destruct (b <? s) eqn:E1; [constructor; auto|].
    destruct (e <? a) eqn:E2; [repeat constructor; auto|].
    apply IH; auto; lia.
Qed.

Lemma merge_wf (s e : N) (l : list Interval) :
  s < e -> wf_tracker l -> wf_tracker (merge s e l).
Proof.
  revert s e; induction l as [|[a b] r IH]; intros s e Hse Hl; simpl.
  - repeat constructor; lia.
  - destruct Hl as (Hab & Hr & Hwr).
    destruct (b <? s) eqn:E1.
    + apply N.ltb_lt in E1. repeat split; auto.
      apply merge_starts_above; auto.
    + destruct (e <? a) eqn:E2.
      * apply N.ltb_lt in E2. repeat split; auto.
        constructor; [lia|]. apply (starts_above_weaken e b); auto; lia.
      * apply IH; auto; lia.
Qed.

Lemma tracker_insert_wf (t : list Interval) (a n : N) :
  wf_tracker t -> wf_tracker (tracker_insert t a n).
Proof.
  unfold tracker_insert; intros H.
  destruct (n =? 0) eqn:E; auto. apply N.eqb_neq in E. apply merge_wf; auto; lia.
Qed.

Lemma build_wf (rs : list (N * N)) : wf_tracker (build rs).
Proof.
  unfold build. cut (forall t, wf_tracker t ->
    wf_tracker (fold_left (fun t '(a, n) => tracker_insert t a n) rs t)).
  { intros H; apply H; exact I. }
  induction rs as [|[a n] rs IH]; intros t Ht; simpl; auto.
  apply IH, tracker_insert_wf, Ht.
Qed.

(** The merged interval covers the inserted one. *)
Lemma merge_covers (s e : N) (l : list Interval) :
  exists c d, In (c, d) (merge s e l) /\ c <= s /\ e <= d.
Proof.
  revert s e; induction l as [|[a b] r IH]; intros s e; simpl.
  - exists s, e; simpl; repeat split; auto; lia.
  - destruct (b <? s).
    + destruct (IH s e) as (c & d & Hin & H1 & H2). exists c, d; simpl; auto.
    + destruct (e <? a).
      * exists s, e; simpl; repeat split; auto; lia.
      * destruct (IH (N.min a s) (N.max b e)) as (c & d & Hin & H1 & H2).
        exists c, d; repeat split; auto; lia.
Qed.

Lemma merge_before (a b : N) (r : list Interval) :
  wf_tracker r -> starts_above b r -> a < b -> merge a b r = (a, b) :: r.
Proof.
  intros Hr Hb Hab; destruct r as [|[c d] r']; simpl; auto.
  inversion Hb as [|? ? Hc _]; subst. destruct Hr as (Hcd & _).
  destruct (d <? a) eqn:E1; [apply N.ltb_lt in E1; lia|].
  destruct (b <? c) eqn:E2; [reflexivity|apply N.ltb_ge in E2; lia].
Qed.

Lemma merge_noop (s e c d : N) (l : list Interval) :
  wf_tracker l -> In (c, d) l -> c <= s -> s <= e -> e <= d -> merge s e l = l.
Proof.
  induction l as [|[a b] r IH]; intros Hwf Hin Hcs Hse Hed; [destruct Hin|].
  destruct Hwf as (Hab & Hr & Hwr). simpl.
  assert (Hr_c : In (c, d) r -> b < c).
  { intros Hi. rewrite Forall_forall in Hr. apply (Hr (c, d) Hi). }
  destruct (b <? s) eqn:E1.
  - apply N.ltb_lt in E1. destruct Hin as [Heq | Hi].
    + inversion Heq; subst; lia.
    + rewrite IH; auto.
  - apply N.ltb_ge in E1. destruct (e <? a) eqn:E2.
    + apply N.ltb_lt in E2. destruct Hin as [Heq | Hi].
      * inversion Heq; subst; lia.
      * specialize (Hr_c Hi); lia.
    + destruct Hin as [Heq | Hi].
      * inversion Heq; subst.
        replace (N.min c s) with c by lia. replace (N.max d e) with d by lia.
        apply merge_before; auto.
      * specialize (Hr_c Hi); lia.
Qed.

Lemma tracker_insert_idem (t : list Interval) (a n : N) :
  wf_tracker t ->
  tracker_insert (tracker_insert t a n) a n = tracker_insert t a n.
Proof.
  unfold tracker_insert; intros Hwf.
  destruct (n =? 0) eqn:E; [reflexivity|].
  apply N.eqb_neq in E.
  destruct (merge_covers a (a + n) t) as (c & d & Hin & H1 & H2).
  apply (merge_noop _ _ c d); auto; [apply merge_wf; auto|]; lia.
Qed.

Lemma tracker_insert_covers (t : list Interval) (a n x : N) :
  a <= x < a + n -> covered (tracker_insert t a n) x = true.
Proof.
  intros Hx; unfold tracker_insert.
  destruct (n =? 0) eqn:E; [apply N.eqb_eq in E; lia|].
  destruct (merge_covers a (a + n) t) as (c & d & Hin & H1 & H2).
  unfold covered. apply existsb_exists. exists (c, d); split; auto.
  apply andb_true_iff; split; [apply N.leb_le | apply N.ltb_lt]; lia.
Qed.

End Tracker.

(* ------------------------------------------------------------------ *)
(** ** Properties of materialization *)

Section Materialize.

Lemma length_update_nth {A} (n : nat) (x : A) (l : list A) :
  length (update_nth n x l) = length l.
Proof. revert n; induction l as [|y r IH]; intros [|k]; simpl; auto. Qed.

Lemma nth_update_nth {A} (n : nat) (x d : A) (l : list A) :
  (n < length l)%nat -> nth n (update_nth n x l) d = x.
Proof.
  revert n; induction l as [|y r IH]; intros [|k] H; simpl in *; auto; try lia.
  apply IH; lia.
Qed.

Lemma observeReads_empty (o : CallObserver) (m : Mem) :
  mPendingObservations o = [] -> observeReads o m = o.
Proof. intros H; unfold observeReads; rewrite H; reflexivity. Qed.

Lemma observeWrites_empty (o : CallObserver) (m : Mem) :
  mPendingObservations o = [] -> observeWrites o m = o.
Proof. intros H; unfold observeWrites; rewrite H; reflexivity. Qed.

(** When something is pending, both materializations return the observer
    of [ensure_observations] with the tracker emptied and the record
    [r] replaced. *)
Lemma observeReads_pending (o : CallObserver) (m : Mem) :
  mPendingObservations o <> [] ->
  let '(o1, r) := ensure_observations o in
  let rec := nth r (mScratch o1) empty_observations in
  observeReads o m =
  set_scratch (set_pending o1 [])
    (update_nth r (mkObservations (mReads rec ++ drain m (mPendingObservations o1))
                                  (mWrites rec)) (mScratch o1)).
Proof.
  intros H; unfold observeReads.
  destruct (mPendingObservations o) as [|p ps] eqn:Ep; [congruence|]. simpl.
  destruct (ensure_observations o) as [o1 r] eqn:Ee. reflexivity.
Qed.

Lemma observeWrites_pending (o : CallObserver) (m : Mem) :
  mPendingObservations o <> [] ->
  let '(o1, r) := ensure_observations o in
  let rec := nth r (mScratch o1) empty_observations in
  observeWrites o m =
  set_scratch (set_pending o1 [])
    (update_nth r (mkObservations (mReads rec)
                                  (mWrites rec ++ drain m (mPendingObservations o1)))
                  (mScratch o1)).
Proof.
  intros H; unfold observeWrites.
  destruct (mPendingObservations o) as [|p ps] eqn:Ep; [congruence|]. simpl.
  destruct (ensure_observations o) as [o1 r] eqn:Ee. reflexivity.
Qed.

Lemma ensure_observations_pending (o : CallObserver) :
  mPendingObservations (fst (ensure_observations o)) = mPendingObservations o.
Proof. unfold ensure_observations; destruct (mObservations o); reflexivity. Qed.

Lemma ensure_observations_valid (o : CallObserver) :
  observations_valid o ->
  let '(o1, r) := ensure_observations o in
  mObservations o1 = Some r /\ (r < length (mScratch o1))%nat
  /\ nth r (mScratch o1) empty_observations = current_record o.
Proof.
  unfold observations_valid, ensure_observations, current_record.
  destruct (mObservations o) as [r|] eqn:Er; intros Hv; simpl.
  - repeat split; auto.
  - rewrite length_app; simpl. repeat split; try lia.
    rewrite app_nth2, Nat.sub_diag by lia. reflexivity.
Qed.

End Materialize.

(* ------------------------------------------------------------------ *)
(** ** Claims on materialization *)

(** C7: after [observeReads()], [observeWrites()] or [observe(target)] the
    pending tracker is empty, whether or not it was empty before. *)
Theorem materialize_empties_tracker (o : CallObserver) (m : Mem)
  (target : list Observation) :
  mPendingObservations (observeReads o m) = []
  /\ mPendingObservations (observeWrites o m) = []
  /\ mPendingObservations (fst (observe o m target)) = [].
Proof.
  destruct (mPendingObservations o) as [|p ps] eqn:Ep.
  - rewrite observeReads_empty, observeWrites_empty by exact Ep.
    repeat split; auto.
  - assert (Hne : mPendingObservations o <> []) by congruence.
    pose proof (observeReads_pending o m Hne) as Hr.
    pose proof (observeWrites_pending o m Hne) as Hw.
    destruct (ensure_observations o) as [o1 r].
    rewrite Hr, Hw. repeat split; reflexivity.
Qed.

(** C10: [read(base, size)] and [write(base, size)] insert into the same
    pending tracker, and whichever of [observeReads()] / [observeWrites()]
    runs next drains every pending range, whatever recorded it, into the
    read list or the write list of the record. *)
Theorem shared_pending_collection :
  (forall o b n, write_raw o b n = read_raw o b n)
  /\ (forall o m, observations_valid o -> mPendingObservations o <> [] ->
        current_record (observeReads o m)
        = mkObservations (mReads (current_record o)
                            ++ drain m (mPendingObservations o))
                         (mWrites (current_record o))
        /\ mPendingObservations (observeReads o m) = [])
  /\ (forall o m, observations_valid o -> mPendingObservations o <> [] ->
        current_record (observeWrites o m)
        = mkObservations (mReads (current_record o))
                         (mWrites (current_record o)
                            ++ drain m (mPendingObservations o))
        /\ mPendingObservations (observeWrites o m) = []).
Proof.
  split; [reflexivity|]. split.
  - intros o m Hv Hne.
    pose proof (observeReads_pending o m Hne) as Hr.
    pose proof (ensure_observations_valid o Hv) as He.
    pose proof (ensure_observations_pending o) as Hp.
    destruct (ensure_observations o) as [o1 r]. simpl in Hp.
    destruct He as (Hs & Hlt & Hnth).
    rewrite Hr; unfold current_record at 1; simpl. rewrite Hs.
    rewrite nth_update_nth by exact Hlt. rewrite Hnth, Hp. split; reflexivity.
  - intros o m Hv Hne.
    pose proof (observeWrites_pending o m Hne) as Hr.
    pose proof (ensure_observations_valid o Hv) as He.
    pose proof (ensure_observations_pending o) as Hp.
    destruct (ensure_observations o) as [o1 r]. simpl in Hp.
    destruct He as (Hs & Hlt & Hnth).
    rewrite Hr; unfold current_record at 1; simpl. rewrite Hs.
    rewrite nth_update_nth by exact Hlt. rewrite Hnth, Hp. split; reflexivity.
Qed.

Section SingleRecord.

(** Either no record exists yet, or exactly one exists, it is the one
    [mObservations] points to, and it is attached to the extras once. *)
Definition record_inv (o : CallObserver) : Prop :=
  (mObservations o = None /\ mScratch o = [] /\ attached_records o = 0%nat)
  \/ (mObservations o = Some 0%nat /\ length (mScratch o) = 1%nat
      /\ attached_records o = 1%nat /\ In (ExObservations 0) (mExtras o)).

Lemma materialize_inv (o : CallObserver) (o' : CallObserver)
  (up : nat -> list Observations -> list Observations) :
  (forall r l, length (up r l) = length l) ->
  record_inv o ->
  o' = (let '(o1, r) := ensure_observations o in
        set_scratch (set_pending o1 []) (up r (mScratch o1))) ->
  record_inv o'.
Proof.
  intros Hup Hinv ->. unfold ensure_observations.
  destruct Hinv as [(Hn & Hs & Ha) | (Hn & Hs & Ha & Hi)]; rewrite Hn.
  - right. unfold set_scratch, set_pending, set_observations, addExtra,
      attached_records in *; simpl.
    rewrite Hup, Hs, filter_app, !length_app, Ha; simpl.
    repeat split; auto. apply in_or_app; simpl; auto.
  - right. unfold set_scratch, set_pending; simpl. rewrite Hup.
    repeat split; auto.
Qed.

Lemma run_op_inv (o : CallObserver) (op : Op) :
  record_inv o -> record_inv (run_op o op).
Proof.
  intros Hinv. destruct op as [b n | b n | tag | m | m]; simpl.
  - exact Hinv.
  - exact Hinv.
  - unfold record_inv, addExtra, attached_records in *; simpl.
    rewrite filter_app, length_app; simpl.
    destruct Hinv as [(? & ? & ?) | (? & ? & ? & ?)]; [left | right];
      repeat split; auto; try lia. apply in_or_app; auto.
  - destruct (mPendingObservations o) as [|p ps] eqn:Ep.
    + rewrite observeReads_empty; auto.
    + assert (Hne : mPendingObservations o <> []) by congruence.
      pose proof (observeReads_pending o m Hne) as Hr.
      destruct (ensure_observations o) as [o1 r] eqn:Ee.
      eapply (materialize_inv o _ (fun r l => update_nth r _ l));
        [intros; apply length_update_nth | exact Hinv | rewrite Ee; exact Hr].
  - destruct (mPendingObservations o) as [|p ps] eqn:Ep.
    + rewrite observeWrites_empty; auto.
    + assert (Hne : mPendingObservations o <> []) by congruence.
      pose proof (observeWrites_pending o m Hne) as Hr.
      destruct (ensure_observations o) as [o1 r] eqn:Ee.
      eapply (materialize_inv o _ (fun r l => update_nth r _ l));
        [intros; apply length_update_nth | exact Hinv | rewrite Ee; exact Hr].
Qed.

Lemma run_ops_inv (o : CallObserver) (ops : list Op) :
  record_inv o -> record_inv (run_ops o ops).
Proof.
  unfold run_ops; revert o; induction ops as [|op ops IH]; intros o H; simpl;
    auto using run_op_inv.
Qed.

End SingleRecord.

Lemma materialize_fields (o : CallObserver) (m : Mem) :
  mPendingObservations o <> [] ->
  let o1 := fst (ensure_observations o) in
  mObservations (observeReads o m) = mObservations o1
  /\ mExtras (observeReads o m) = mExtras o1
  /\ length (mScratch (observeReads o m)) = length (mScratch o1)
  /\ mObservations (observeWrites o m) = mObservations o1
  /\ mExtras (observeWrites o m) = mExtras o1
  /\ length (mScratch (observeWrites o m)) = length (mScratch o1).
Proof.
  intros Hne.
  pose proof (observeReads_pending o m Hne) as Hr.
  pose proof (observeWrites_pending o m Hne) as Hw.
  destruct (ensure_observations o) as [o1 r]. simpl.
  rewrite Hr, Hw; simpl. rewrite !length_update_nth. repeat split; reflexivity.
Qed.

(** C5: over any sequence of calls on one observer, at most one
    observation record is created and at most one is attached to the
    extras (the one [mObservations] remembers); the first materialization
    with a non-empty tracker creates and attaches it, later ones keep
    appending into it, and a materialization with an empty tracker changes
    nothing. *)
Theorem single_observations_record :
  (forall (flag : bool) (ops : list Op),
     let o := run_ops (new_observer flag) ops in
     (length (mScratch o) <= 1)%nat /\ (attached_records o <= 1)%nat
     /\ (forall r, mObservations o = Some r -> In (ExObservations r) (mExtras o)))
  /\ (forall o m, mPendingObservations o = [] ->
        observeReads o m = o /\ observeWrites o m = o)
  /\ (forall o m, mObservations o = None -> mPendingObservations o <> [] ->
        let r := length (mScratch o) in
        mObservations (observeReads o m) = Some r
        /\ mExtras (observeReads o m) = mExtras o ++ [ExObservations r]
        /\ mObservations (observeWrites o m) = Some r
        /\ mExtras (observeWrites o m) = mExtras o ++ [ExObservations r])
  /\ (forall o m r, mObservations o = Some r ->
        mObservations (observeReads o m) = Some r
        /\ mExtras (observeReads o m) = mExtras o
        /\ length (mScratch (observeReads o m)) = length (mScratch o)
        /\ mObservations (observeWrites o m) = Some r
        /\ mExtras (observeWrites o m) = mExtras o
        /\ length (mScratch (observeWrites o m)) = length (mScratch o)).
Proof.
  split; [|split; [|split]].
  - intros flag ops o.
    assert (Hi : record_inv o).
    { apply run_ops_inv. left; repeat split. }
    destruct Hi as [(Hn & Hs & Ha) | (Hn & Hs & Ha & Hin)].
    + rewrite Hs, Ha, Hn; simpl. repeat split; auto; discriminate.
    + rewrite Hs, Ha, Hn. repeat split; auto. intros r Hr. inversion Hr; subst; auto.
  - intros o m H. split; [apply observeReads_empty | apply observeWrites_empty]; auto.
  - intros o m Hn Hne r.
    pose proof (materialize_fields o m Hne) as Hf.
    unfold ensure_observations in Hf. rewrite Hn in Hf. simpl in Hf.
    destruct Hf as (H1 & H2 & _ & H4 & H5 & _). repeat split; assumption.
  - intros o m r Hs.
    destruct (mPendingObservations o) as [|p ps] eqn:Ep.
    + rewrite observeReads_empty, observeWrites_empty by exact Ep.
      repeat split; auto.
    + assert (Hne : mPendingObservations o <> []) by congruence.
      pose proof (materialize_fields o m Hne) as Hf.
      unfold ensure_observations in Hf. rewrite Hs in Hf. simpl in Hf.
      rewrite Hs in Hf. exact Hf.
Qed.

(* ------------------------------------------------------------------ *)
(** ** Claims on the tracker and the policy gate *)

(** C6: every tracker built by insertions keeps its intervals non-empty,
    ordered, and apart (no two overlap or touch); inserting a range a
    second time changes nothing, so inserting [[a, a+n)] twice into an
    empty tracker leaves one interval; [[0,10)] then [[10,20)] gives
    [[0,20)]; [[0,10)] then [[5,15)] gives [[0,15)]; size 0 is a no-op. *)
Theorem tracker_coalesces (rs : list (N * N)) :
  let t := build rs in
  wf_tracker t
  /\ (forall a n, tracker_insert (tracker_insert t a n) a n = tracker_insert t a n)
  /\ (forall a n, tracker_insert (tracker_insert [] a (N.succ n)) a (N.succ n)
                  = [(a, a + N.succ n)])
  /\ tracker_insert (tracker_insert [] 0 10) 10 10 = [(0, 20)]
  /\ tracker_insert (tracker_insert [] 0 10) 5 10 = [(0, 15)]
  /\ (forall (t' : list Interval) a, tracker_insert t' a 0 = t').
Proof.
  intros t. pose proof (build_wf rs) as Hwf.
  split; [exact Hwf|]. split; [intros; apply tracker_insert_idem, Hwf|].
  split; [|split; [reflexivity|split; [reflexivity|reflexivity]]].
  intros a n. rewrite tracker_insert_idem by exact I.
  unfold tracker_insert. destruct (N.succ n =? 0) eqn:E; [|reflexivity].
  apply N.eqb_eq in E; lia.
Qed.

Lemma read_slice_flag (sz : N) (o : CallObserver) (s : Slice) :
  mObserveApplicationPool (read_slice sz o s) = mObserveApplicationPool o.
Proof. unfold read_slice; destruct (shouldObserve o s); reflexivity. Qed.

(** C2: [shouldObserve(s)] holds exactly when the policy flag is set and
    [s] is in the application pool; on an application-owned slice,
    [read(slice)] and [write(slice)] leave the tracker alone when the flag
    is off, and insert the slice's extent (covering every byte of it) when
    the flag is on. *)
Theorem shouldObserve_policy_gate (sz : N) (o : CallObserver) (s : Slice) :
  (shouldObserve o s = true
   <-> mObserveApplicationPool o = true /\ isApplicationPool s = true)
  /\ (isApplicationPool s = true -> mObserveApplicationPool o = false ->
        mPendingObservations (read_slice sz o s) = mPendingObservations o
        /\ mPendingObservations (write_slice sz o s) = mPendingObservations o)
  /\ (isApplicationPool s = true -> mObserveApplicationPool o = true ->
        mPendingObservations (read_slice sz o s)
        = tracker_insert (mPendingObservations o) (s_base s) (slice_bytes sz s)
        /\ mPendingObservations (write_slice sz o s)
           = tracker_insert (mPendingObservations o) (s_base s) (slice_bytes sz s)
        /\ (forall x, s_base s <= x < s_base s + slice_bytes sz s ->
              covered (mPendingObservations (read_slice sz o s)) x = true
              /\ covered (mPendingObservations (write_slice sz o s)) x = true)).
Proof.
  unfold shouldObserve. split; [apply andb_true_iff|]. split.
  - intros Ha Hf. unfold read_slice, write_slice, shouldObserve.
    rewrite Ha, Hf. split; reflexivity.
  - intros Ha Hf. unfold read_slice, write_slice, shouldObserve.
    rewrite Ha, Hf. simpl. repeat split; intros;
      apply tracker_insert_covers; assumption.
Qed.

(* ------------------------------------------------------------------ *)
(** ** Claims on strings *)

Lemma length_load (m : Mem) (a n : N) : length (load m a n) = N.to_nat n.
Proof. unfold load. rewrite length_map, length_seq. reflexivity. Qed.

Lemma scan_first_zero (m : Mem) (str n : N) (fuel : nat) (i : N) :
  i <= n -> (forall k, i <= k < n -> m (str + k) <> x00) ->
  m (str + n) = x00 -> (N.to_nat (n - i) < fuel)%nat ->
  scan m str i fuel = Some n.
Proof.
  revert i; induction fuel as [|f IH]; intros i Hin Hk Hz Hf; [lia|]. simpl.
  destruct (Byte.eqb (m (str + i)) x00) eqn:E.
  - apply Byte.byte_dec_bl in E.
    destruct (N.eq_dec i n) as [->|Hne]; [reflexivity|].
    exfalso; apply (Hk i); auto; lia.
  - apply Byte.eqb_false in E.
    assert (Hlt : i < n) by (destruct (N.eq_dec i n); subst; [congruence|lia]).
    apply IH; auto; try lia. intros k Hk'; apply Hk; lia.
Qed.

(** C8: [string(cPointer)] aborts on a null pointer; otherwise, when the
    first zero byte is at offset [n], the scan stops there (the loop runs
    [n+1] iterations), the tracker receives the single read
    [[cPointer, cPointer+n+1)], and the result is the [n] bytes before the
    terminator. *)
Theorem string_c_spec :
  (forall o m fuel, string_c o m 0 fuel = Aborted)
  /\ (forall o m str n fuel,
        str <> 0 -> m (str + n) = x00 ->
        (forall k, k < n -> m (str + k) <> x00) ->
        (N.to_nat n < fuel)%nat ->
        string_c o m str fuel
        = Returned (read_raw o str (n + 1)) (String.string_of_list_byte (load m str n))
        /\ mPendingObservations (read_raw o str (n + 1))
           = tracker_insert (mPendingObservations o) str (n + 1)
        /\ String.list_byte_of_string (String.string_of_list_byte (load m str n))
           = map (fun k => m (str + N.of_nat k)) (seq 0 (N.to_nat n))
        /\ length (load m str n) = N.to_nat n).
Proof.
  split; [intros; reflexivity|].
  intros o m str n fuel Hnn Hz Hk Hf. unfold string_c, checkNotNull.
  destruct (str =? 0) eqn:E; [apply N.eqb_eq in E; contradiction|]. simpl.
  rewrite (scan_first_zero m str n fuel 0).
  - repeat split; [apply String.list_byte_of_string_of_list_byte|apply length_load].
  - lia.
  - intros k Hk'; apply Hk; lia.
  - exact Hz.
  - rewrite N.sub_0_r; exact Hf.
Qed.

(** The claim for [string(slice)] as written: the slice's extent is
    recorded whatever the slice's pool. *)
Definition string_slice_records_extent (o : CallObserver) (m : Mem) (s : Slice) : Prop :=
  mPendingObservations (fst (string_slice o m s))
  = tracker_insert (mPendingObservations o) (s_base s) (slice_bytes 1 s).

(** C9 (counterexample): an interceptor-owned [Slice<char>] of 3 bytes
    read by [string(slice)] with the policy flag on leaves the tracker
    empty, so the slice's extent is not recorded. *)
Lemma string_slice_interceptor_not_recorded :
  ~ string_slice_records_extent (new_observer true) abc_mem (mkSlice 64 3 (Some 0%nat)).
Proof. unfold string_slice_records_extent; simpl. discriminate. Qed.

(** C9 (amended): [string(slice)] records the slice's extent as a read
    exactly when [shouldObserve(slice)] holds, and returns the slice's
    [count] bytes verbatim, zero bytes included. *)
Theorem string_slice_spec (o : CallObserver) (m : Mem) (s : Slice) :
  fst (string_slice o m s)
  = (if shouldObserve o s then read_raw o (s_base s) (slice_bytes 1 s) else o)
  /\ String.list_byte_of_string (snd (string_slice o m s))
     = load m (s_base s) (s_count s).
Proof.
  split; [reflexivity|]. apply String.list_byte_of_string_of_list_byte.
Qed.

(* ------------------------------------------------------------------ *)
(** ** Element writes, copies and clones *)

Lemma load_ext (m1 m2 : Mem) (a1 a2 n : N) :
  (forall k, k < n -> m1 (a1 + k) = m2 (a2 + k)) -> load m1 a1 n = load m2 a2 n.
Proof.
  intros H; unfold load. apply map_ext_in. intros k Hk.
  apply in_seq in Hk. apply H. lia.
Qed.

Lemma move_inside (m : Mem) (dst src n k : N) :
  k < n -> move m dst src n (dst + k) = m (src + k).
Proof.
  intros Hk; unfold move.
  replace ((dst <=? dst + k) && (dst + k <? dst + n)) with true
    by (symmetry; apply andb_true_iff; split; [apply N.leb_le|apply N.ltb_lt]; lia).
  f_equal; lia.
Qed.

Lemma move_outside (m : Mem) (dst src n x : N) :
  x < dst \/ dst + n <= x -> move m dst src n x = m x.
Proof.
  intros Hx; unfold move.
  destruct ((dst <=? x) && (x <? dst + n)) eqn:E; [|reflexivity].
  apply andb_true_iff in E as [E1 E2].
  apply N.leb_le in E1; apply N.ltb_lt in E2; lia.
Qed.

Section SliceWrites.

Variable T : Type.
Variable sz : N.
Variable enc : T -> list byte.

(** An observed application-owned destination is not written. *)
Lemma write_elem_observed (o : CallObserver) (m : Mem) (dst : Slice) (i : N) (v : T) :
  shouldObserve o dst = true ->
  write_elem T sz enc o m dst i v
  = (write_raw o (elem_addr sz dst i) sz, m).
Proof. intros H; unfold write_elem; rewrite H; reflexivity. Qed.

(** An interceptor-owned destination receives the value at element [i]. *)
Lemma write_elem_interceptor (o : CallObserver) (m : Mem) (dst : Slice) (i : N) (v : T) :
  isApplicationPool dst = false ->
  write_elem T sz enc o m dst i v = (o, store m (elem_addr sz dst i) (enc v)).
Proof.
  intros H; unfold write_elem, shouldObserve; rewrite H, andb_false_r; reflexivity.
Qed.

Lemma nth_map_lt {A B} (f : A -> B) (l : list A) (d : A) (d' : B) (k : nat) :
  (k < length l)%nat -> nth k (map f l) d' = f (nth k l d).
Proof.
  revert k; induction l as [|x r IH]; intros [|k] Hk; simpl in *; auto; try lia.
  apply IH; lia.
Qed.

Lemma store_load (m : Mem) (a : N) (bs : list byte) :
  load (store m a bs) a (N.of_nat (length bs)) = bs.
Proof.
  unfold load, store. rewrite Nat2N.id.
  apply (nth_ext _ _ x00 x00); rewrite length_map, length_seq; [reflexivity|].
  intros k Hk. rewrite (nth_map_lt _ _ 0%nat) by (rewrite length_seq; exact Hk).
  rewrite seq_nth by exact Hk. simpl.
  replace ((a <=? a + N.of_nat k) && (a + N.of_nat k <? a + N.of_nat (length bs)))
    with true
    by (symmetry; apply andb_true_iff; split; [apply N.leb_le|apply N.ltb_lt]; lia).
  f_equal. lia.
Qed.

(** An observed application-owned destination is not copied into. *)
Lemma copy_observed (o : CallObserver) (m : Mem) (dst src : Slice) :
  shouldObserve o dst = true ->
  copy sz o m dst src = (read_slice sz o src, m, dst).
Proof.
  intros H; unfold copy.
  assert (H' : shouldObserve (read_slice sz o src) dst = true)
    by (unfold shouldObserve in *; rewrite read_slice_flag; exact H).
  rewrite H'; reflexivity.
Qed.

(** An interceptor-owned destination receives the first
    [min(src.count(), dst.count())] elements of the source. *)
Lemma copy_interceptor (o : CallObserver) (m : Mem) (dst src : Slice) :
  isApplicationPool dst = false ->
  let c := N.min (s_count src) (s_count dst) in
  let '(o', m', d) := copy sz o m dst src in
  o' = read_slice sz o src /\ d = dst
  /\ load m' (s_base dst) (c * sz) = load m (s_base src) (c * sz).
Proof.
  intros H c; unfold copy, shouldObserve. rewrite H, andb_false_r. simpl.
  repeat split.
  assert (Hc : (if s_count src <? s_count dst then s_count src else s_count dst) = c).
  { unfold c. destruct (s_count src <? s_count dst) eqn:E;
      [apply N.ltb_lt in E | apply N.ltb_ge in E]; lia. }
  rewrite Hc. apply load_ext. intros k Hk.
  unfold slice_copy, elem_addr. rewrite !N.mul_0_l, !N.add_0_r.
  cbn [s_base s_count s_pool].
  apply move_inside; exact Hk.
Qed.

End SliceWrites.

Lemma store_outside (m : Mem) (a x : N) (bs : list byte) :
  x < a \/ a + N.of_nat (length bs) <= x -> store m a bs x = m x.
Proof.
  intros Hx; unfold store.
  destruct ((a <=? x) && (x <? a + N.of_nat (length bs))) eqn:E; [|reflexivity].
  apply andb_true_iff in E as [E1 E2].
  apply N.leb_le in E1; apply N.ltb_lt in E2; lia.
Qed.

(** The claim for [clone(src)] as written records [src]'s extent as a read
    whatever [src]'s pool and the policy flag. *)
Definition clone_records_src (sz : N) (o : CallObserver) (m : Mem) (h : Heap)
  (src : Slice) : Prop :=
  let '(o', _, _, _) := clone sz o m h src in
  mPendingObservations o'
  = tracker_insert (mPendingObservations o) (s_base src) (slice_bytes sz src).

(** C4 (counterexample): cloning an interceptor-owned slice of two bytes
    with the policy flag on records nothing. *)
Lemma clone_interceptor_src_not_recorded :
  ~ clone_records_src 1 (new_observer true) abc_mem (mkHeap 1 4096)
      (mkSlice 64 2 (Some 0%nat)).
Proof. unfold clone_records_src; simpl. discriminate. Qed.

(** C4 (amended): provided [src] was allocated before the clone (its pool,
    if any, precedes the fresh one, and its bytes lie in memory the pool
    allocator had already handed out), [clone(src)] records [src]'s extent
    as a read exactly when [shouldObserve(src)] holds; it returns a slice of
    the same count in a freshly created pool (never the application pool,
    never [src]'s pool) none of whose bytes lies in [src]'s storage, whose
    bytes afterwards equal [src]'s, with [src]'s bytes left unchanged by the
    clone and by any later element write into the returned slice. *)
Theorem clone_spec (sz : N) (o : CallObserver) (m : Mem) (h : Heap) (src : Slice)
  (Hpool : forall p, s_pool src = Some p -> (p < next_pool h)%nat)
  (Hbelow : s_base src + s_count src * sz <= next_addr h) :
  let '(o', m', h', dst) := clone sz o m h src in
  mPendingObservations o'
  = (if shouldObserve o src
     then tracker_insert (mPendingObservations o) (s_base src) (slice_bytes sz src)
     else mPendingObservations o)
  /\ s_count dst = s_count src
  /\ isApplicationPool dst = false
  /\ s_pool dst <> s_pool src
  /\ (forall k, k < s_count dst * sz ->
        ~ (s_base src <= s_base dst + k < s_base src + s_count src * sz))
  /\ load m' (s_base dst) (s_count dst * sz) = load m' (s_base src) (s_count src * sz)
  /\ load m' (s_base src) (s_count src * sz) = load m (s_base src) (s_count src * sz)
  /\ (forall (T : Type) (enc : T -> list byte) (i : N) (v : T),
        load (snd (write_elem T sz enc o' m' dst i v)) (s_base src) (s_count src * sz)
        = load m' (s_base src) (s_count src * sz)).
Proof.
  assert (Hd : forall o1, shouldObserve o1
                 (mkSlice (next_addr h) (s_count src) (Some (next_pool h))) = false)
    by (intros; unfold shouldObserve; simpl; apply andb_false_r).
  unfold clone, make, pool_create. simpl. unfold copy. rewrite Hd.
  rewrite N.ltb_irrefl. simpl.
  unfold slice_copy, elem_addr. rewrite !N.mul_0_l, !N.add_0_r.
  cbn [s_base s_count s_pool].
  set (n := s_count src * sz).
  assert (Hsrc : load (move m (next_addr h) (s_base src) n) (s_base src) n
                 = load m (s_base src) n).
  { apply load_ext. intros k Hk. apply move_outside. unfold n in *; lia. }
  repeat split.
  - unfold read_slice, read_raw, set_pending. destruct (shouldObserve o src); reflexivity.
  - intros Heq. destruct (s_pool src) as [p|] eqn:Ep; [|discriminate].
    inversion Heq; subst. specialize (Hpool _ eq_refl). lia.
  - intros k Hk Hin. unfold n in *; lia.
  - rewrite Hsrc. apply load_ext. intros k Hk. apply move_inside; exact Hk.
  - exact Hsrc.
  - intros T enc i v. unfold write_elem. rewrite Hd. simpl.
    apply load_ext. intros k Hk. apply store_outside. left.
    unfold elem_addr; cbn [s_base]. unfold n in *; lia.
Qed.

(* ------------------------------------------------------------------ *)
(** ** Writes into the application pool with the policy flag off *)

(** C1: with [observeApplicationPool] off, [write(dst, 0, 0x01)] on an
    application-owned [Slice<uint8_t>] at address 4096 takes the
    [dst[index] = value] branch (its guard is [!shouldObserve(dst)], not
    [!dst.isApplicationPool()]) and changes the application byte from 0 to 1,
    against the source comment "The spy must not mutate data in the
    application pool". *)
Theorem write_elem_mutates_application_memory :
  let dst := mkSlice 4096 1 None in
  isApplicationPool dst = true
  /\ zero_mem 4096 = x00
  /\ snd (write_elem byte 1 (fun b => [b]) (new_observer false) zero_mem dst 0 x01) 4096
     = x01.
Proof. vm_compute. repeat split. Qed.

(** C3: with [observeApplicationPool] off, [copy(dst, src)] from a 3-byte
    interceptor-owned slice into a 2-byte application-owned slice at
    address 4096 copies 2 bytes into application memory, against the
    source comment "The spy must not mutate data in the application pool". *)
Theorem copy_mutates_application_memory :
  let dst := mkSlice 4096 2 None in
  let src := mkSlice 64 3 (Some 0%nat) in
  isApplicationPool dst = true
  /\ load abc_mem 4096 2 = [x00; x00]
  /\ load (snd (fst (copy 1 (new_observer false) abc_mem dst src))) 4096 2 = [x61; x62]
  /\ snd (copy 1 (new_observer false) abc_mem dst src) = dst.
Proof. vm_compute. repeat split. Qed.

(* ------------------------------------------------------------------ *)
(** ** Witnesses *)

Lemma shouldObserve_policy_gate_witness :
  (mPendingObservations (read_slice 1 (new_observer false) (mkSlice 64 3 None)) = []
   /\ mPendingObservations (write_slice 1 (new_observer false) (mkSlice 64 3 None)) = [])
  /\ (mPendingObservations (read_slice 1 (new_observer true) (mkSlice 64 3 None))
      = tracker_insert [] 64 (slice_bytes 1 (mkSlice 64 3 None))
      /\ mPendingObservations (write_slice 1 (new_observer true) (mkSlice 64 3 None))
         = tracker_insert [] 64 (slice_bytes 1 (mkSlice 64 3 None))
      /\ (forall x, 64 <= x < 64 + slice_bytes 1 (mkSlice 64 3 None) ->
            covered (mPendingObservations (read_slice 1 (new_observer true) (mkSlice 64 3 None))) x = true
            /\ covered (mPendingObservations (write_slice 1 (new_observer true) (mkSlice 64 3 None))) x = true)).
Proof.
  split.
  - apply (shouldObserve_policy_gate 1 (new_observer false) (mkSlice 64 3 None));
      reflexivity.
  - apply (shouldObserve_policy_gate 1 (new_observer true) (mkSlice 64 3 None));
      reflexivity.
Defined.

Lemma clone_spec_witness :
  64 + 3 * 1 <= next_addr (mkHeap 1 4096)
  /\ (let '(o', m', h', dst) := clone 1 (new_observer true) abc_mem (mkHeap 1 4096)
                                      (mkSlice 64 3 None) in
      mPendingObservations o'
      = (if shouldObserve (new_observer true) (mkSlice 64 3 None)
         then tracker_insert [] 64 (slice_bytes 1 (mkSlice 64 3 None))
         else [])
      /\ s_count dst = 3
      /\ isApplicationPool dst = false
      /\ s_pool dst <> None
      /\ (forall k, k < s_count dst * 1 -> ~ (64 <= s_base dst + k < 64 + 3 * 1))
      /\ load m' (s_base dst) (s_count dst * 1) = load m' 64 (3 * 1)
      /\ load m' 64 (3 * 1) = load abc_mem 64 (3 * 1)
      /\ (forall (T : Type) (enc : T -> list byte) (i : N) (v : T),
            load (snd (write_elem T 1 enc o' m' dst i v)) 64 (3 * 1)
            = load m' 64 (3 * 1))).
Proof.
  split; [simpl; lia|].
  apply (clone_spec 1 (new_observer true) abc_mem (mkHeap 1 4096) (mkSlice 64 3 None)).
  - intros p Hp; discriminate.
  - simpl; lia.
Defined.

Lemma single_observations_record_witness :
  mObservations (read_raw (new_observer true) 64 2) = None
  /\ mPendingObservations (read_raw (new_observer true) 64 2) <> []
  /\ mObservations (observeReads (read_raw (new_observer true) 64 2) abc_mem) = Some 0%nat
  /\ mExtras (observeReads (read_raw (new_observer true) 64 2) abc_mem)
     = [] ++ [ExObservations 0]
  /\ mObservations (observeWrites (read_raw (new_observer true) 64 2) abc_mem) = Some 0%nat
  /\ mExtras (observeWrites (read_raw (new_observer true) 64 2) abc_mem)
     = [] ++ [ExObservations 0].
Proof.
  split; [reflexivity|]. split; [simpl; discriminate|].
  destruct single_observations_record as (_ & _ & H3 & _).
  apply (H3 (read_raw (new_observer true) 64 2) abc_mem); [reflexivity|simpl; discriminate].
Defined.

Lemma string_c_spec_witness :
  64 <> 0 /\ abc_mem (64 + 3) = x00 /\ (N.to_nat 3 < 10)%nat
  /\ string_c (new_observer true) abc_mem 64 10
     = Returned (read_raw (new_observer true) 64 (3 + 1))
                (String.string_of_list_byte (load abc_mem 64 3))
  /\ mPendingObservations (read_raw (new_observer true) 64 (3 + 1))
     = tracker_insert [] 64 (3 + 1)
  /\ String.list_byte_of_string (String.string_of_list_byte (load abc_mem 64 3))
     = map (fun k => abc_mem (64 + N.of_nat k)) (seq 0 (N.to_nat 3))
  /\ length (load abc_mem 64 3) = N.to_nat 3.
Proof.
  split; [lia|]. split; [reflexivity|]. split; [simpl; lia|].
  destruct string_c_spec as [_ H].
  apply (H (new_observer true) abc_mem 64 3 10%nat).
  - lia.
  - reflexivity.
  - intros k Hk.
    assert (k = 0 \/ k = 1 \/ k = 2) as [-> | [-> | ->]] by lia; discriminate.
  - simpl; lia.
Defined.

Lemma shared_pending_collection_witness :
  observations_valid (write_raw (new_observer true) 64 3)
  /\ current_record (observeReads (write_raw (new_observer true) 64 3) abc_mem)
     = mkObservations ([] ++ drain abc_mem [(64, 67)]) []
  /\ current_record (observeWrites (write_raw (new_observer true) 64 3) abc_mem)
     = mkObservations [] ([] ++ drain abc_mem [(64, 67)]).
Proof.
  split; [exact I|].
  destruct shared_pending_collection as (_ & H2 & H3). split.
  - apply (H2 (write_raw (new_observer true) 64 3) abc_mem); [exact I|simpl; discriminate].
  - apply (H3 (write_raw (new_observer true) 64 3) abc_mem); [exact I|simpl; discriminate].
Defined.

(* ------------------------------------------------------------------ *)
(** ** Further properties of the element and slice operations *)


Section ElementRoundTrip.

Variable T : Type.
Variable sz : N.
Variable enc : T -> list byte.
Variable dec : list byte -> T.

(** [write(dst, i, v)] followed by [read(dst, i)] on a slice that is not
    observed returns [v] and records nothing, when [T]'s representation
    has [sizeof(T)] bytes and reads back as the value it represents. *)
Theorem write_then_read_elem (o : CallObserver) (m : Mem) (dst : Slice) (i : N)
  (v : T)
  (Hdec : dec (enc v) = v) (Hlen : N.of_nat (length (enc v)) = sz)
  (Hobs : shouldObserve o dst = false) :
  let '(o1, m1) := write_elem T sz enc o m dst i v in
  read_elem T sz dec o1 m1 dst i = (o, v).
Proof.
  unfold write_elem. rewrite Hobs. simpl.
  unfold read_elem. rewrite Hobs. f_equal.
  rewrite <- Hlen, store_load. exact Hdec.
Qed.

(** [write(dst, i, v)] touches no byte outside element [i]: when [dst] is
    observed it changes no memory at all and records exactly the element's
    [sizeof(T)] bytes; otherwise every byte outside the element's
    representation keeps its value and nothing is recorded. *)
Theorem write_elem_frame (o : CallObserver) (m : Mem) (dst : Slice) (i : N) (v : T) :
  let '(o', m') := write_elem T sz enc o m dst i v in
  let a := elem_addr sz dst i in
  (shouldObserve o dst = true ->
     m' = m /\ mPendingObservations o' = tracker_insert (mPendingObservations o) a sz)
  /\ (shouldObserve o dst = false ->
     o' = o /\ forall x, x < a \/ a + N.of_nat (length (enc v)) <= x -> m' x = m x).
Proof.
  unfold write_elem. destruct (shouldObserve o dst) eqn:E; simpl.
  - split; [intros _; split; reflexivity | discriminate].
  - split; [discriminate|]. intros _. split; [reflexivity|].
    intros x Hx. apply store_outside; exact Hx.
Qed.

(** [read(src, i)] returns the element's value whatever the policy flag,
    and when [src] is observed every byte of the element is covered by the
    tracker afterwards; it never records anything otherwise. *)
Theorem read_elem_observation (o : CallObserver) (m : Mem) (src : Slice) (i : N) :
  let '(o', v) := read_elem T sz dec o m src i in
  v = snd (read_elem T sz dec (new_observer false) m src i)
  /\ (shouldObserve o src = false -> o' = o)
  /\ (shouldObserve o src = true -> forall x,
        elem_addr sz src i <= x < elem_addr sz src i + sz ->
        covered (mPendingObservations o') x = true).
Proof.
  unfold read_elem. destruct (shouldObserve o src) eqn:E; simpl;
    (split; [reflexivity|split]).
  - discriminate.
  - intros _ x Hx. apply tracker_insert_covers; exact Hx.
  - intros _; reflexivity.
  - discriminate.
Qed.

End ElementRoundTrip.

(** [copy(dst, src)] writes no byte outside the first
    [min(src.count(), dst.count())] elements of [dst]. *)
Theorem copy_frame (sz : N) (o : CallObserver) (m : Mem) (dst src : Slice) :
  let c := N.min (s_count src) (s_count dst) in
  forall x, x < s_base dst \/ s_base dst + c * sz <= x ->
  snd (fst (copy sz o m dst src)) x = m x.
Proof.
  intros c x Hx. unfold copy.
  destruct (negb (shouldObserve (read_slice sz o src) dst)); simpl; [|reflexivity].
  assert (Hc : (if s_count src <? s_count dst then s_count src else s_count dst) = c).
  { unfold c. destruct (s_count src <? s_count dst) eqn:E;
      [apply N.ltb_lt in E | apply N.ltb_ge in E]; lia. }
  rewrite Hc. unfold slice_copy, elem_addr. rewrite !N.mul_0_l, !N.add_0_r.
  apply move_outside; exact Hx.
Qed.

(** Memory in an interceptor-owned pool is never observed: [read(slice)],
    [write(slice)], [read(slice, i)], [write(slice, i, v)], [copy(dst, slice)]
    and [string(slice)] on such a slice leave the observer unchanged,
    whatever the policy flag. *)
Theorem interceptor_slices_unobserved (T : Type) (sz : N) (enc : T -> list byte)
  (dec : list byte -> T) (o : CallObserver) (m : Mem) (s dst : Slice) (i : N) (v : T) :
  isApplicationPool s = false ->
  read_slice sz o s = o /\ write_slice sz o s = o
  /\ fst (read_elem T sz dec o m s i) = o
  /\ fst (write_elem T sz enc o m s i v) = o
  /\ fst (fst (copy sz o m dst s)) = o
  /\ fst (string_slice o m s) = o.
Proof.
  intros H.
  assert (Hs : forall o', shouldObserve o' s = false)
    by (intros; unfold shouldObserve; rewrite H; apply andb_false_r).
  unfold read_slice, write_slice, read_elem, write_elem, copy, string_slice, read_slice.
  rewrite !Hs. simpl.
  repeat split; try reflexivity.
  destruct (negb (shouldObserve o dst)); reflexivity.
Qed.

(* ------------------------------------------------------------------ *)
(** ** Further properties of strings, extras and materialization *)

Lemma scan_some (m : Mem) (str : N) (fuel : nat) (i n : N) :
  scan m str i fuel = Some n ->
  i <= n /\ m (str + n) = x00 /\ (forall k, i <= k < n -> m (str + k) <> x00).
Proof.
  revert i; induction fuel as [|f IH]; intros i H; simpl in H; [discriminate|].
  destruct (Byte.eqb (m (str + i)) x00) eqn:E.
  - inversion H; subst. apply Byte.byte_dec_bl in E.
    split; [lia | split; [exact E | intros k Hk; lia]].
  - apply Byte.eqb_false in E. destruct (IH (i + 1) H) as (H1 & H2 & H3).
    split; [lia | split; [exact H2 | intros k Hk]].
    destruct (N.eq_dec k i) as [->|Hne]; auto. apply H3; lia.
Qed.

(** Whenever [string(str)] returns, [str] is not null, the text is the
    bytes before the first zero byte at or after [str] (so it holds no zero
    byte), and every byte of the text and of its terminator is covered by
    the tracker. *)
Theorem string_c_returned (o o' : CallObserver) (m : Mem) (str : N) (fuel : nat)
  (t : String.string) :
  string_c o m str fuel = Returned o' t ->
  str <> 0 /\
  exists n, m (str + n) = x00
    /\ String.list_byte_of_string t = load m str n
    /\ ~ In x00 (String.list_byte_of_string t)
    /\ (forall x, str <= x <= str + n -> covered (mPendingObservations o') x = true).
Proof.
  unfold string_c, checkNotNull. destruct (str =? 0) eqn:Ez; simpl; [discriminate|].
  destruct (scan m str 0 fuel) as [n|] eqn:Es; [|discriminate].
  intros H; inversion H; subst; clear H.
  apply N.eqb_neq in Ez. split; [exact Ez|].
  destruct (scan_some m str fuel 0 n Es) as (_ & Hz & Hk).
  exists n. rewrite String.list_byte_of_string_of_list_byte.
  repeat split; auto.
  - unfold load. intros Hin. apply in_map_iff in Hin as (k & Hk0 & Hin).
    apply in_seq in Hin. apply (Hk (N.of_nat k)); [lia|exact Hk0].
  - intros x Hx. apply tracker_insert_covers. lia.
Qed.

Lemma run_op_extras (o : CallObserver) (op : Op) :
  exists l, mExtras (run_op o op) = mExtras o ++ l.
Proof.
  destruct op as [b n | b n | tag | m | m]; simpl.
  - exists []; rewrite app_nil_r; reflexivity.
  - exists []; rewrite app_nil_r; reflexivity.
  - exists [ExOther tag]; reflexivity.
  - destruct (mPendingObservations o) as [|p ps] eqn:Ep.
    + rewrite observeReads_empty by exact Ep. exists []; rewrite app_nil_r; reflexivity.
    + assert (Hne : mPendingObservations o <> []) by congruence.
      destruct (materialize_fields o m Hne) as (_ & H & _).
      rewrite H. unfold ensure_observations.
      destruct (mObservations o); simpl; [exists []; rewrite app_nil_r | eexists];
        reflexivity.
  - destruct (mPendingObservations o) as [|p ps] eqn:Ep.
    + rewrite observeWrites_empty by exact Ep. exists []; rewrite app_nil_r; reflexivity.
    + assert (Hne : mPendingObservations o <> []) by congruence.
      destruct (materialize_fields o m Hne) as (_ & _ & _ & _ & H & _).
      rewrite H. unfold ensure_observations.
      destruct (mObservations o); simpl; [exists []; rewrite app_nil_r | eexists];
        reflexivity.
Qed.

(** The extras are append-only: no sequence of calls removes or reorders
    an extra, and [addExtra] calls append their entries in call order. *)
Theorem extras_append_only (o : CallObserver) (ops : list Op) (tags : list nat) :
  (exists l, mExtras (run_ops o ops) = mExtras o ++ l)
  /\ mExtras (run_ops o (map OpAddExtra tags)) = mExtras o ++ map ExOther tags.
Proof.
  split.
  - unfold run_ops. revert o; induction ops as [|op ops IH]; intros o; simpl.
    + exists []; rewrite app_nil_r; reflexivity.
    + destruct (run_op_extras o op) as (l1 & H1).
      destruct (IH (run_op o op)) as (l2 & H2).
      exists (l1 ++ l2). rewrite H2, H1, app_assoc. reflexivity.
  - unfold run_ops. revert o; induction tags as [|tg tags IH]; intros o; simpl.
    + rewrite app_nil_r; reflexivity.
    + rewrite IH. simpl. rewrite <- app_assoc. reflexivity.
Qed.

(** One call's observation cycle: on a fresh observer, a read of
    [[a, a+n)] materialized by [observeReads()] and then a write of
    [[b, b+k)] materialized by [observeWrites()] produce one record holding
    the read bytes as they were at the first drain and the written bytes as
    they were at the second, attached once to the extras. *)
Theorem read_write_cycle (flag : bool) (a n b k : N) (m1 m2 : Mem)
  (Hn : 0 < n) (Hk : 0 < k) :
  let o := observeWrites
             (write_raw (observeReads (read_raw (new_observer flag) a n) m1) b k) m2 in
  mScratch o = [mkObservations [mkObservation a (load m1 a n)]
                               [mkObservation b (load m2 b k)]]
  /\ mExtras o = [ExObservations 0]
  /\ mObservations o = Some 0%nat
  /\ mPendingObservations o = [].
Proof.
  assert (Ha : tracker_insert [] a n = [(a, a + n)]).
  { unfold tracker_insert. destruct (n =? 0) eqn:E; [apply N.eqb_eq in E; lia|reflexivity]. }
  assert (Hb : tracker_insert [] b k = [(b, b + k)]).
  { unfold tracker_insert. destruct (k =? 0) eqn:E; [apply N.eqb_eq in E; lia|reflexivity]. }
  replace (a + n - a) with n in * by lia.
  unfold read_raw, new_observer, set_pending; simpl. rewrite Ha.
  unfold observeReads; simpl.
  unfold write_raw, set_pending; simpl. rewrite Hb.
  unfold observeWrites; simpl.
  replace (a + n - a) with n by lia. replace (b + k - b) with k by lia.
  repeat split; reflexivity.
Qed.

Section Coverage.

Local Definition in_range (a b x : N) : bool := (a <=? x) && (x <? b).

Lemma covered_cons (a b : N) (l : list Interval) (x : N) :
  covered ((a, b) :: l) x = in_range a b x || covered l x.
Proof. reflexivity. Qed.

Lemma in_range_union (a b s e x : N) :
  a <= b -> s <= e -> s <= b -> a <= e ->
  in_range (N.min a s) (N.max b e) x = in_range a b x || in_range s e x.
Proof.
  intros H1 H2 H3 H4. unfold in_range.
  destruct (N.leb_spec (N.min a s) x), (N.ltb_spec x (N.max b e)),
           (N.leb_spec a x), (N.ltb_spec x b), (N.leb_spec s x), (N.ltb_spec x e);
    simpl; try reflexivity; lia.
Qed.

Local Abbreviation ordered l := (Forall (fun '(c, d) => c <= d) l).

Lemma merge_covered (s e : N) (l : list Interval) (x : N) :
  ordered l -> s <= e ->
  covered (merge s e l) x = in_range s e x || covered l x.
Proof.
  revert s e; induction l as [|[a b] r IH]; intros s e Hl Hse; cbn [merge].
  - rewrite covered_cons. reflexivity.
  - inversion Hl as [|? ? Hab Hr]; subst.
    destruct (b <? s) eqn:E1.
    + rewrite covered_cons, IH by assumption. rewrite covered_cons.
      destruct (in_range a b x), (in_range s e x); reflexivity.
    + destruct (e <? a) eqn:E2; [reflexivity|].
      apply N.ltb_ge in E1; apply N.ltb_ge in E2.
      rewrite IH by (auto; lia). rewrite in_range_union by lia.
      rewrite covered_cons. destruct (in_range a b x), (in_range s e x); reflexivity.
Qed.

Lemma wf_ordered (t : list Interval) : wf_tracker t -> ordered t.
Proof.
  induction t as [|[a b] r IH]; simpl; intros H; constructor.
  - lia.
  - apply IH, H.
Qed.

(** An address is covered by the tracker built from a sequence of
    [read]/[write] ranges exactly when it lies in one of the ranges: no
    recorded byte is lost by merging, and no other byte is added. *)
Theorem build_covered (rs : list (N * N)) (x : N) :
  covered (build rs) x = existsb (fun '(a, n) => in_range a (a + n) x) rs.
Proof.
  unfold build.
  cut (forall t, wf_tracker t ->
         covered (fold_left (fun t '(a, n) => tracker_insert t a n) rs t) x
         = covered t x || existsb (fun '(a, n) => in_range a (a + n) x) rs).
  { intros H. rewrite H by exact I. reflexivity. }
  induction rs as [|[a n] rs IH]; intros t Ht; simpl.
  - rewrite orb_false_r; reflexivity.
  - rewrite IH by (apply tracker_insert_wf; exact Ht).
    unfold tracker_insert. destruct (n =? 0) eqn:E.
    + apply N.eqb_eq in E; subst.
      assert (H0 : in_range a (a + 0) x = false).
      { unfold in_range. destruct (N.leb_spec a x), (N.ltb_spec x (a + 0));
          simpl; try reflexivity; lia. }
      rewrite H0. reflexivity.
    + rewrite merge_covered by (auto using wf_ordered; lia).
      destruct (in_range a (a + n) x), (covered t x); reflexivity.
Qed.

End Coverage.

(* ------------------------------------------------------------------ *)
(** ** Witnesses of the further properties *)

Definition byte_dec (l : list byte) : byte := hd x00 l.

Lemma write_then_read_elem_witness :
  byte_dec [x07] = x07 /\ N.of_nat (length [x07]) = 1
  /\ shouldObserve (new_observer true) (mkSlice 4096 2 (Some 0%nat)) = false
  /\ (let '(o1, m1) := write_elem byte 1 (fun b => [b]) (new_observer true) zero_mem
                         (mkSlice 4096 2 (Some 0%nat)) 1 x07 in
      read_elem byte 1 byte_dec o1 m1 (mkSlice 4096 2 (Some 0%nat)) 1
      = (new_observer true, x07)).
Proof.
  split; [reflexivity|]. split; [reflexivity|]. split; [reflexivity|].
  apply (write_then_read_elem byte 1 (fun b => [b]) byte_dec); reflexivity.
Defined.

Lemma write_elem_frame_witness :
  snd (write_elem byte 1 (fun b => [b]) (new_observer true) zero_mem
         (mkSlice 4096 2 None) 1 x07) = zero_mem
  /\ snd (write_elem byte 1 (fun b => [b]) (new_observer true) zero_mem
            (mkSlice 4096 2 (Some 0%nat)) 1 x07) 4096 = zero_mem 4096.
Proof.
  split.
  - pose proof (write_elem_frame byte 1 (fun b => [b]) (new_observer true) zero_mem
                  (mkSlice 4096 2 None) 1 x07) as H.
    destruct (write_elem byte 1 (fun b => [b]) (new_observer true) zero_mem
                (mkSlice 4096 2 None) 1 x07) as [o' m'] eqn:E.
    destruct H as [H _]. simpl. apply H. reflexivity.
  - pose proof (write_elem_frame byte 1 (fun b => [b]) (new_observer true) zero_mem
                  (mkSlice 4096 2 (Some 0%nat)) 1 x07) as H.
    destruct (write_elem byte 1 (fun b => [b]) (new_observer true) zero_mem
                (mkSlice 4096 2 (Some 0%nat)) 1 x07) as [o' m'] eqn:E.
    destruct H as [_ H]. simpl. apply H; [reflexivity|]. left; unfold elem_addr; simpl; lia.
Defined.

Lemma read_elem_observation_witness :
  covered (mPendingObservations
             (fst (read_elem byte 1 byte_dec (new_observer true) abc_mem
                     (mkSlice 64 3 None) 2))) 66 = true.
Proof.
  pose proof (read_elem_observation byte 1 byte_dec (new_observer true) abc_mem
                (mkSlice 64 3 None) 2) as H.
  destruct (read_elem byte 1 byte_dec (new_observer true) abc_mem
              (mkSlice 64 3 None) 2) as [o' v] eqn:E.
  destruct H as (_ & _ & H). simpl. apply H; [reflexivity|]. unfold elem_addr; simpl; lia.
Defined.

Lemma copy_frame_witness :
  snd (fst (copy 1 (new_observer true) abc_mem (mkSlice 200 2 (Some 0%nat))
              (mkSlice 64 3 (Some 1%nat)))) 202 = abc_mem 202.
Proof.
  apply (copy_frame 1 (new_observer true) abc_mem (mkSlice 200 2 (Some 0%nat))
           (mkSlice 64 3 (Some 1%nat))).
  right; simpl; lia.
Defined.

Lemma interceptor_slices_unobserved_witness :
  isApplicationPool (mkSlice 64 3 (Some 0%nat)) = false
  /\ read_slice 1 (new_observer true) (mkSlice 64 3 (Some 0%nat)) = new_observer true
  /\ write_slice 1 (new_observer true) (mkSlice 64 3 (Some 0%nat)) = new_observer true
  /\ fst (read_elem byte 1 byte_dec (new_observer true) abc_mem
            (mkSlice 64 3 (Some 0%nat)) 0) = new_observer true
  /\ fst (write_elem byte 1 (fun b => [b]) (new_observer true) abc_mem
            (mkSlice 64 3 (Some 0%nat)) 0 x07) = new_observer true
  /\ fst (fst (copy 1 (new_observer true) abc_mem (mkSlice 200 3 None)
                 (mkSlice 64 3 (Some 0%nat)))) = new_observer true
  /\ fst (string_slice (new_observer true) abc_mem (mkSlice 64 3 (Some 0%nat)))
     = new_observer true.
Proof.
  split; [reflexivity|].
  apply (interceptor_slices_unobserved byte 1 (fun b => [b]) byte_dec
           (new_observer true) abc_mem (mkSlice 64 3 (Some 0%nat))
           (mkSlice 200 3 None) 0 x07).
  reflexivity.
Defined.

Lemma string_c_returned_witness :
  string_c (new_observer true) abc_mem 64 10
  = Returned (set_pending (new_observer true) [(64, 68)])
             (String.string_of_list_byte [x61; x62; x63])
  /\ (64 <> 0 /\
      exists n, abc_mem (64 + n) = x00
        /\ String.list_byte_of_string (String.string_of_list_byte [x61; x62; x63])
           = load abc_mem 64 n
        /\ ~ In x00 (String.list_byte_of_string
                       (String.string_of_list_byte [x61; x62; x63]))
        /\ (forall x, 64 <= x <= 64 + n ->
              covered (mPendingObservations
                         (set_pending (new_observer true) [(64, 68)])) x = true)).
Proof.
  split; [reflexivity|].
  apply (string_c_returned (new_observer true) _ abc_mem 64 10). reflexivity.
Defined.

Lemma read_write_cycle_witness :
  0 < 4 /\ 0 < 2
  /\ (let o := observeWrites
                 (write_raw (observeReads (read_raw (new_observer true) 64 4) abc_mem)
                            200 2) zero_mem in
      mScratch o = [mkObservations [mkObservation 64 (load abc_mem 64 4)]
                                   [mkObservation 200 (load zero_mem 200 2)]]
      /\ mExtras o = [ExObservations 0]
      /\ mObservations o = Some 0%nat
      /\ mPendingObservations o = []).
Proof.
  split; [lia|]. split; [lia|].
  apply (read_write_cycle true 64 4 200 2 abc_mem zero_mem); lia.
Defined.

(* ------------------------------------------------------------------ *)
(** ** The pending tracker over a call *)

Lemma materialize_pending_nil (o : CallObserver) (m : Mem) :
  mPendingObservations o <> [] ->
  mPendingObservations (observeReads o m) = []
  /\ mPendingObservations (observeWrites o m) = [].
Proof.
  intros Hne.
  pose proof (observeReads_pending o m Hne) as Hr.
  pose proof (observeWrites_pending o m Hne) as Hw.
  destruct (ensure_observations o) as [o1 r].
  rewrite Hr, Hw. split; reflexivity.
Qed.

(** Across any sequence of [read]/[write] recordings, extras and
    materializations on a fresh observer, the pending ranges stay
    non-empty, in address order and apart (no two overlap or touch), so a
    materialization appends observations of disjoint, increasing ranges. *)
Theorem pending_wf_over_call (flag : bool) (ops : list Op) :
  wf_tracker (mPendingObservations (run_ops (new_observer flag) ops)).
Proof.
  unfold run_ops.
  cut (forall o, wf_tracker (mPendingObservations o) ->
         wf_tracker (mPendingObservations (fold_left run_op ops o))).
  { intros H; apply H; exact I. }
  induction ops as [|op ops IH]; intros o Ho; simpl; auto.
  apply IH. destruct op as [b n | b n | tag | m | m]; simpl.
  - apply tracker_insert_wf; exact Ho.
  - apply tracker_insert_wf; exact Ho.
  - exact Ho.
  - destruct (mPendingObservations o) as [|p ps] eqn:Ep.
    + rewrite observeReads_empty by exact Ep. rewrite Ep; exact I.
    + assert (Hne : mPendingObservations o <> []) by congruence.
      rewrite (proj1 (materialize_pending_nil o m Hne)); exact I.
  - destruct (mPendingObservations o) as [|p ps] eqn:Ep.
    + rewrite observeWrites_empty by exact Ep. rewrite Ep; exact I.
    + assert (Hne : mPendingObservations o <> []) by congruence.
      rewrite (proj2 (materialize_pending_nil o m Hne)); exact I.
Qed.
